(** * infinigen_examples/asset_dev.py: parameter sampling and sweep enumeration

    A shallow embedding of the logic of [asset_dev.py]: the parameter
    dictionary of [MyAsset] ([sample_params], the override step of
    [__init__] and [compose_scene]) and the one-factor-at-a-time sweep of
    [iter_overrides].  Calls into the host application (scene, shader,
    renderer) carry no logic of their own and are not modelled. *)

From Stdlib Require Import PrimFloat SpecFloat FloatOps FloatAxioms.
From Stdlib Require Import Ascii DecimalString DecimalNat.
From stdpp Require Import gmap strings list.

Set Warnings "-inexact-float".

(** ** Exceptions and results *)

(** The Python exception the modelled code can raise. *)
Inductive exn : Set :=
  | IndexError.

(** Outcome of a call: a returned value or a raised exception. *)
Inductive result (A : Type) : Type :=
  | Ok (a : A)
  | Raise (e : exn).
Arguments Ok {A} a.
Arguments Raise {A} e.

#[global] Instance result_ret : MRet result := @Ok.
#[global] Instance result_bind : MBind result := λ A B f r,
  match r with
  | Ok a => f a
  | Raise e => Raise e
  end.

(** ** Python dictionaries

    A [dict] keeps its items in insertion order and its keys are unique.
    It is modelled as the list of its items; [dict_wf] is the uniqueness
    of keys, which every Python dictionary satisfies. *)

Abbreviation dict V := (list (string * V)).

Module PyDict.
Section ops.
Context {V : Type}.
Implicit Types (d o : dict V) (k : string) (v : V).

(** [d.keys()], in iteration order. *)
Definition keys d : list string := d.*1.

Definition dict_wf d : Prop := NoDup (keys d).

(** [d.get(k)]: the value stored under [k], if any. *)
Fixpoint get d k : option V :=
  match d with
  | [] => None
  | (k', v') :: d' => if decide (k' = k) then Some v' else get d' k
  end.

(** [d[k] = v]: an existing key keeps its position and takes the new
    value, a new key is appended. *)
Fixpoint setitem d k v : dict V :=
  match d with
  | [] => [(k, v)]
  | (k', v') :: d' =>
      if decide (k' = k) then (k', v) :: d' else (k', v') :: setitem d' k v
  end.

(** [d.update(o)]: [d[k] = v] for every item of [o], in order.  It never
    raises. *)
Definition update d o : dict V :=
  foldl (λ acc kv, setitem acc kv.1 kv.2) d o.

(** [copy(d)]: a new dictionary with the same items (the values are
    shared; here they are immutable numbers). *)
Definition copy d : dict V := d.
End ops.
End PyDict.
Import PyDict.

(** ** iter_overrides

    [v[i]] on a list (or array) with [0 <= i]: [IndexError] when
    [len(v) <= i]. *)
Definition list_subscript {V : Type} (v : list V) (i : nat) : result V :=
  match v !! i with
  | Some x => Ok x
  | None => Raise IndexError
  end.

Section sweep.
Context {V : Type}.
Implicit Types (ranges : dict (list V)) (mid res : dict V).

(** The comprehension [{k: v[len(v)//2] for k, v in ranges.items()}]:
    items are visited in order and stored in a fresh dictionary; the
    first failing subscript ends the evaluation. *)
Fixpoint mid_vals_from (acc : dict V) (items : list (string * list V))
  : result (dict V) :=
  match items with
  | [] => Ok acc
  | (k, v) :: rest =>
      x ← list_subscript v (length v / 2);
      mid_vals_from (setitem acc k x) rest
  end.

Definition mid_vals ranges : result (dict V) := mid_vals_from [] ranges.

(** [sum(len(v) for v in ranges.values())]: the number of candidates of
    a RangeSpec. *)
Definition total ranges : nat := sum_list_with (λ kv, length kv.2) ranges.

(** Every parameter of the RangeSpec has at least one candidate. *)
Definition nonempty_ranges ranges : Prop := Forall (λ kv, kv.2 ≠ []) ranges.

(** The two nested loops, each iteration yielding
    [res = copy(mid_vals); res[k] = vi]. *)
Definition sweep_steps mid ranges : list (dict V) :=
  '(k, v) ← ranges; vi ← v; [setitem (copy mid) k vi].

(** [list(iter_overrides(ranges))]: the dictionaries yielded, in order,
    or the exception that ends the enumeration. *)
Definition iter_overrides ranges : result (list (dict V)) :=
  mid ← mid_vals ranges;
  mret (sweep_steps mid ranges).
End sweep.

(** ** The generator object of iter_overrides

    [iter_overrides] is a generator: its body runs between calls of
    [next], and the dictionaries it yields are objects that its consumer
    may keep and mutate.  Dictionaries therefore live in a store, and the
    generator and its consumer hold references into it. *)

Abbreviation loc := positive.
Abbreviation heap V := (gmap loc (dict V)).

Section generator.
Context {V : Type}.
Implicit Types (h : heap V) (m r : loc) (ranges : dict (list V)).

(** The frame of the generator between two calls of [next]: not started
    yet; suspended at [yield] inside the inner loop, with its local
    [mid_vals] (a reference), the current key, and what is left of both
    loops; or exhausted. *)
Inductive gen : Type :=
  | Created (ranges : dict (list V))
  | Suspended (m : loc) (k : string) (inner : list V)
      (outer : list (string * list V))
  | Finished.

(** What a call of [next] gives its caller. *)
Inductive signal : Type :=
  | Yield (r : loc)
  | StopIteration
  | Raised (e : exn).

(** A new object takes a reference that no live object has. *)
Definition alloc h (d : dict V) : loc * heap V :=
  let r := fresh (dom h) in (r, <[r := d]> h).

(** One iteration of the inner loop body:
    [res = copy(mid_vals); res[k] = vi; yield res]. *)
Definition yield_step h m (k : string) (vi : V) (inner : list V)
    (outer : list (string * list V)) : heap V * gen * signal :=
  let '(res, h) := alloc h (copy (h !!! m)) in
  let h := alter (λ d, setitem d k vi) res h in
  (h, Suspended m k inner outer, Yield res).

(** The outer loop, entered at its head: the first key with a candidate
    left reaches [yield]; with no such key the generator returns. *)
Fixpoint resume_outer h m (outer : list (string * list V))
  : heap V * gen * signal :=
  match outer with
  | [] => (h, Finished, StopIteration)
  | (k, v) :: outer' =>
      match v with
      | [] => resume_outer h m outer'
      | vi :: inner => yield_step h m k vi inner outer'
      end
  end.

(** [next(g)]. *)
Definition next h (g : gen) : heap V * gen * signal :=
  match g with
  | Created ranges =>
      match mid_vals ranges with
      | Raise e => (h, Finished, Raised e)
      | Ok mid => let '(m, h) := alloc h mid in resume_outer h m ranges
      end
  | Suspended m k inner outer =>
      match inner with
      | vi :: inner' => yield_step h m k vi inner' outer
      | [] => resume_outer h m outer
      end
  | Finished => (h, Finished, StopIteration)
  end.

(** A consumer: what it does to the store between two calls of [next],
    given the references it has received so far. *)
Definition consumer : Type := list loc → heap V → heap V.

(** [for res in g: ...] with the loop body [client]: the references
    yielded, each with the dictionary it held when it was yielded, and the
    exception that ended the loop, if any.  [None] when [fuel] calls of
    [next] do not exhaust the generator. *)
Fixpoint drive (fuel : nat) (client : consumer) h (g : gen)
    (seen : list loc) : option (list (loc * dict V) * option exn) :=
  match fuel with
  | O => None
  | S fuel =>
      match next h g with
      | (h, g, Yield r) =>
          let seen := seen ++ [r] in
          '(ys, e) ← drive fuel client (client seen h) g seen;
          Some ((r, h !!! r) :: ys, e)
      | (_, _, StopIteration) => Some ([], None)
      | (_, _, Raised e) => Some ([], Some e)
      end
  end.

(** A consumer reaches only the dictionaries it was given: it leaves
    every other live object as it is, and frees nothing. *)
Definition consumer_ok (client : consumer) : Prop :=
  ∀ seen h l, l ∈ dom h →
    l ∈ dom (client seen h) ∧ (l ∉ seen → client seen h !! l = h !! l).

(** What holds of the store whenever the generator is resumed: its
    [mid_vals] is the dictionary it computed, no reference to it has been
    handed out, and the references handed out are distinct and live. *)
Definition gen_inv h m (mid : dict V) (seen : list loc) : Prop :=
  h !! m = Some mid ∧ (m ∉ seen) ∧ NoDup seen ∧ ∀ l, l ∈ seen → l ∈ dom h.

(** Resumed inside the loops, the generator hands its consumer what is
    left of the enumeration, whatever the consumer does to the
    dictionaries it holds. *)
Definition resumes (client : consumer) m mid k (inner : list V)
    (outer : dict (list V)) : Prop :=
  ∀ fuel h seen,
    gen_inv h m mid seen →
    length inner + total outer < fuel →
    ∃ ys, drive fuel client h (Suspended m k inner outer) seen = Some (ys, None) ∧
          ys.*2 = ((λ vi, setitem (copy mid) k vi) <$> inner) ++ sweep_steps mid outer ∧
          NoDup (seen ++ ys.*1) ∧
          ∀ r, r ∈ ys.*1 → r ∉ dom h.
End generator.
Arguments gen : clear implicits.
Arguments consumer : clear implicits.

(** ** The sampler: MyAsset *)

(** Computations on the process-wide random source of numpy. *)
Definition state (S A : Type) : Type := S → A * S.

#[global] Instance state_ret {S} : MRet (state S) := λ A a s, (a, s).
#[global] Instance state_bind {S} : MBind (state S) := λ A B f c s,
  let '(a, s) := c s in f a s.

(** [lo <= x <= hi] on floats. *)
Definition between (lo hi x : float) : bool := (lo <=? x)%float && (x <=? hi)%float.

(** [if overrides is not None: params.update(overrides)], as in
    [MyAsset.__init__] and in [compose_scene].  Neither branch raises. *)
Definition apply_overrides {V} (params : dict V) (overrides : option (dict V))
  : result (dict V) :=
  match overrides with
  | None => Ok params
  | Some o => Ok (update params o)
  end.

Section sampler.
(** numpy is outside the repository: its generator state and the calls
    the script makes are parameters. *)
Context {rng : Type}.
Variable np_seed : Z → rng.
Variable np_uniform : float → float → state rng float.
Variable np_randint : Z → Z → state rng Z.
(** What the fixed-seed context leaves in the process-wide source on
    exit, from the state it saved on entry and the state the block ended
    in. *)
Variable on_exit : rng → rng → rng.
Local Open Scope float_scope.

(** [np.random.uniform(low, high)] returns a value of the interval. *)
Definition uniform_in_interval : Prop :=
  ∀ lo hi g, (lo <=? hi) = true → between lo hi (np_uniform lo hi g).1 = true.

(** Modelled from the spec: [FixedSeed] of [infinigen.core.util.math] is
    not among the sources.  The spec has it seed the process-wide random
    source with the given seed for the block it encloses. *)
Definition FixedSeed {A} (seed : Z) (body : state rng A) : state rng A :=
  λ g, let '(a, g') := body (np_seed seed) in (a, on_exit g g').

(** [MyAsset.sample_params]: the four draws, in the order of the
    dictionary display. *)
Definition sample_params : state rng (dict float) :=
  major_radius ← np_uniform 1 2;
  minor_radius ← np_uniform 0.1 1;
  noise_scale ← np_uniform 1 20;
  noise_distortion ← np_uniform 0 5;
  mret [ ("major_radius"%string, major_radius);
         ("minor_radius"%string, minor_radius);
         ("noise_scale"%string, noise_scale);
         ("noise_distortion"%string, noise_distortion) ].

(** [MyAsset.__init__], as the value of [self.params] it leaves.  The
    constructor of the base class, called first, is outside the sources and
    has no part in [self.params]. *)
Definition MyAsset_init (factory_seed : Z) (overrides : option (dict float))
  : state rng (result (dict float)) :=
  FixedSeed factory_seed (
    params ← sample_params;
    mret (apply_overrides params overrides)).

(** [compose_scene], as the parameters of the factory it spawns from. *)
Definition compose_scene (overrides : option (dict float))
  : state rng (result (dict float)) :=
  factory_seed ← np_randint 0 10000000;
  r ← MyAsset_init factory_seed None;
  mret (params ← r; apply_overrides params overrides).
End sampler.

(** The parameters [sample_params] draws for a factory seed, inside the
    fixed-seed block of [__init__]. *)
Definition sampled {rng} (np_seed : Z → rng)
    (np_uniform : float → float → state rng float) (factory_seed : Z)
  : dict float :=
  (sample_params np_uniform (np_seed factory_seed)).1.

(** ** Reading the parameters: create_asset and my_shader *)

(** Outcome of code whose only failure is a dictionary subscript:
    [KeyError] carries the missing key. *)
Inductive subscripted (A : Type) : Type :=
  | Value (a : A)
  | KeyError (k : string).
Arguments Value {A} a.
Arguments KeyError {A} k.

#[global] Instance subscripted_ret : MRet subscripted := @Value.
#[global] Instance subscripted_bind : MBind subscripted := λ A B f r,
  match r with
  | Value a => f a
  | KeyError k => KeyError k
  end.

(** [d[k]] as an expression. *)
Definition subscript {V} (d : dict V) (k : string) : subscripted V :=
  match get d k with
  | Some v => Value v
  | None => KeyError k
  end.

(** The arguments of [bpy.ops.mesh.primitive_torus_add] in
    [MyAsset.create_asset]. *)
Record torus : Type := Torus {
  major_segments : Z;
  minor_segments : Z;
  major_radius : float;
  minor_radius : float;
}.

(** The inputs [my_shader] gives its noise texture and displacement
    nodes. *)
Record shader_inputs : Type := ShaderInputs {
  Scale : float;
  Distortion : float;
  displacement_scale : float;
}.

(** [MyAsset.create_asset], up to the call of the torus operator: the
    keyword arguments are evaluated in the order they are written. *)
Definition create_asset (params : dict float) : subscripted torus :=
  major ← subscript params "major_radius";
  minor ← subscript params "minor_radius";
  mret (Torus 100 50 major minor).

(** [my_shader], as the node inputs it reads from [params]. *)
Definition my_shader (params : dict float) : subscripted shader_inputs :=
  scale ← subscript params "noise_scale";
  distortion ← subscript params "noise_distortion";
  mret (ShaderInputs scale distortion 0.02%float).

(** The names and sampling intervals of [sample_params]. *)
Definition param_intervals : list (string * (float * float)) :=
  [ ("major_radius", (1, 2)); ("minor_radius", (0.1, 1));
    ("noise_scale", (1, 20)); ("noise_distortion", (0, 5)) ]%float.

Definition param_names : list string := param_intervals.*1.

(** ** create_param_demo *)

(** [str(i)] for a natural number. *)
Definition str (i : nat) : string :=
  DecimalString.NilZero.string_of_uint (Nat.to_uint i).

(** [n] zeros in front of [s]. *)
Fixpoint zfill (n : nat) (s : string) : string :=
  match n with
  | O => s
  | S n => String "0"%char (zfill n s)
  end.

(** [f'{i:04d}'] for a natural number: the decimal digits, with zeros in
    front up to four characters. *)
Definition format_04d (i : nat) : string :=
  zfill (4 - String.length (str i)) (str i).

(** [int(s)] for a string of decimal digits; [None] for any other
    string, the empty one included. *)
Definition int_of_digits (s : string) : option nat :=
  Nat.of_uint <$> DecimalString.NilZero.uint_of_string s.

(** What one pass of the loop of [create_param_demo] fixes: the frame
    number, the OverrideSet, the parameters of the asset it composes, and
    the files it writes. *)
Record frame : Type := Frame {
  frame_index : nat;
  frame_overrides : dict float;
  frame_params : result (dict float);
  frame_blend : option string;
  frame_image : string;
}.

Section demo.
Context {rng : Type}.
Variable np_seed : Z → rng.
Variable np_uniform : float → float → state rng float.
Variable np_randint : Z → Z → state rng Z.
Variable on_exit : rng → rng → rng.
(** [np.linspace(start, stop, num)]. *)
Variable np_linspace : float → float → nat → list float.
Local Open Scope float_scope.

(** [np.linspace] returns [num] samples. *)
Definition linspace_length : Prop :=
  ∀ start stop num, length (np_linspace start stop num) = num.

Definition override_ranges : dict (list float) :=
  [ ("major_radius"%string, np_linspace 1 2 3);
    ("minor_radius"%string, np_linspace 0.1 1 3);
    ("noise_scale"%string, np_linspace 1 20 3);
    ("noise_distortion"%string, np_linspace 0 5 3) ].

(** The body of the loop for the pair [(i, overrides)]. *)
Definition render_step (save_blend : bool) (seed : Z) (i : nat)
    (overrides : dict float) : state rng frame :=
  params ← FixedSeed np_seed on_exit seed
              (compose_scene np_seed np_uniform np_randint on_exit (Some overrides));
  mret (Frame i overrides params
          (if save_blend then Some ("scene_" +:+ str i +:+ ".blend") else None)
          (format_04d i +:+ ".png")).

(** The loop over [enumerate(...)], from the index [i] on. *)
Fixpoint render_all (save_blend : bool) (seed : Z) (i : nat)
    (steps : list (dict float)) : state rng (list frame) :=
  match steps with
  | [] => mret []
  | overrides :: steps =>
      fr ← render_step save_blend seed i overrides;
      frs ← render_all save_blend seed (S i) steps;
      mret (fr :: frs)
  end.

(** [create_param_demo], as the frames it renders; an exception of the
    enumeration ends it before the first frame. *)
Definition create_param_demo (save_blend : bool) (seed : Z)
  : state rng (result (list frame)) :=
  match iter_overrides override_ranges with
  | Raise e => mret (Raise e)
  | Ok steps => frs ← render_all save_blend seed 0 steps; mret (Ok frs)
  end.
End demo.

(** ** Inputs of the examples *)

(** The base of the examples: a parameter set as [sample_params] builds it. *)
Definition base0 : dict float :=
  [ ("major_radius"%string, 1.5); ("minor_radius"%string, 0.5);
    ("noise_scale"%string, 10); ("noise_distortion"%string, 2.5) ]%float.

(** The RangeSpec of the end-to-end scenario of the spec. *)
Definition ranges_demo : dict (list float) :=
  [ ("major_radius"%string, [1; 1.5; 2]);
    ("minor_radius"%string, [0.1; 0.55; 1]) ]%float.

(** A RangeSpec whose second parameter has no candidate. *)
Definition ranges_hole : dict (list float) :=
  [ ("major_radius"%string, [1; 1.5; 2]%float);
    ("minor_radius"%string, []) ].

(** A consumer that empties every dictionary it has received so far. *)
Definition clearing_client {V} : consumer V :=
  λ seen h, foldr (λ l h, <[l := []]> h) h seen.

(** A toy random source, for examples: the state counts the draws, and a
    draw returns an end of the interval. *)
Definition toy_seed (s : Z) : Z := s.
Definition toy_uniform (lo hi : float) : state Z float :=
  λ g, (if Z.even g then lo else hi, Z.succ g).

(** A toy [linspace]: the two ends in turn, [num] times. *)
Definition toy_linspace (start stop : float) (num : nat) : list float :=
  (λ j, if Nat.even j then start else stop) <$> seq 0 num.

(** A toy [randint]: the low end. *)
Definition toy_randint (lo hi : Z) : state Z Z := λ g, (lo, Z.succ g).

(** * Properties *)

(** ** Dictionaries *)

Section dict_facts.
Context {V : Type}.
Implicit Types (d o : dict V) (k : string) (v : V).

Lemma get_None d k : get d k = None ↔ k ∉ keys d.
Proof.
  induction d as [|[k' v'] d IH]; simpl.
  - split; [intros _; apply not_elem_of_nil | done].
  - rewrite not_elem_of_cons, <- IH. case_decide.
    + split; [done | intros [? _]; congruence].
    + split; [intros ?; split; [congruence | done] | by intros [_ ?]].
Qed.

Lemma get_is_Some d k : is_Some (get d k) ↔ k ∈ keys d.
Proof.
  rewrite <- not_eq_None_Some, get_None.
  split; [apply dec_stable | auto].
Qed.

Lemma get_Some_elem d k v : get d k = Some v → (k, v) ∈ d.
Proof.
  induction d as [|[k' v'] d IH]; simpl; [done|].
  case_decide; intros ?; simplify_eq; [left | right; auto].
Qed.

Lemma elem_get_Some d k v : dict_wf d → (k, v) ∈ d → get d k = Some v.
Proof.
  unfold dict_wf, keys.
  induction d as [|[k' v'] d IH]; simpl; intros Hwf Hin.
  - by apply elem_of_nil in Hin.
  - apply NoDup_cons in Hwf as [Hk' Hwf].
    apply elem_of_cons in Hin as [?|Hin]; simplify_eq.
    + by rewrite decide_True.
    + rewrite decide_False; [auto|].
      intros ->. apply Hk'. by apply (list_elem_of_fmap_2 fst) in Hin.
Qed.

Lemma get_setitem_eq d k v : get (setitem d k v) k = Some v.
Proof.
  induction d as [|[k' v'] d IH]; simpl.
  - by rewrite decide_True.
  - case_decide; simpl; [by rewrite decide_True | by rewrite decide_False].
Qed.

Lemma get_setitem_ne d k k' v : k ≠ k' → get (setitem d k v) k' = get d k'.
Proof.
  intros Hne. induction d as [|[k0 v0] d IH]; simpl.
  - by rewrite decide_False.
  - case_decide; simpl; [subst; by rewrite !decide_False |].
    by rewrite IH.
Qed.

Lemma keys_setitem_in d k v : k ∈ keys d → keys (setitem d k v) = keys d.
Proof.
  unfold keys. induction d as [|[k' v'] d IH]; simpl; intros Hin.
  - by apply elem_of_nil in Hin.
  - case_decide; simpl; [done|].
    apply elem_of_cons in Hin as [?|?]; [congruence|]. f_equal. by apply IH.
Qed.

Lemma keys_setitem_notin d k v :
  k ∉ keys d → keys (setitem d k v) = keys d ++ [k].
Proof.
  unfold keys. induction d as [|[k' v'] d IH]; simpl; intros Hin; [done|].
  apply not_elem_of_cons in Hin as [? ?].
  rewrite decide_False by done. simpl. f_equal. by apply IH.
Qed.

Lemma setitem_setitem d k v v' :
  setitem (setitem d k v) k v' = setitem d k v'.
Proof.
  induction d as [|[k0 v0] d IH]; simpl.
  - by rewrite decide_True.
  - case_decide; simpl; [by rewrite decide_True |].
    rewrite decide_False by done. by rewrite IH.
Qed.

Lemma setitem_comm d k k' v v' :
  k ≠ k' → k ∈ keys d →
  setitem (setitem d k v) k' v' = setitem (setitem d k' v') k v.
Proof.
  unfold keys. intros Hne.
  induction d as [|[k0 v0] d IH]; simpl; intros Hin.
  - by apply elem_of_nil in Hin.
  - apply elem_of_cons in Hin as [Hin|Hin].
    + subst k0. rewrite decide_True by done. rewrite decide_False by done.
      simpl. rewrite decide_False by done. by rewrite decide_True.
    + repeat (case_decide; simpl); simplify_eq; try done.
      f_equal. by apply IH.
Qed.

Lemma update_snoc d o k v :
  update d (o ++ [(k, v)]) = setitem (update d o) k v.
Proof. unfold update. by rewrite foldl_app. Qed.

Lemma keys_update_subseteq d o : keys d ⊆ keys (update d o).
Proof.
  revert d. induction o as [|[k v] o IH]; intros d; simpl; [done|].
  etrans; [|apply IH]. intros x Hx.
  destruct (decide (k ∈ keys d)).
  - by rewrite keys_setitem_in.
  - rewrite keys_setitem_notin by done. apply elem_of_app. by left.
Qed.

Lemma keys_update_known d o : keys o ⊆ keys d → keys (update d o) = keys d.
Proof.
  revert d. induction o as [|[k v] o IH]; intros d Hsub; simpl; [done|].
  assert (k ∈ keys d) as Hk by (apply Hsub; left).
  rewrite IH; rewrite keys_setitem_in; try done.
  intros x Hx. apply Hsub. by right.
Qed.

Lemma get_update_notin d o k : k ∉ keys o → get (update d o) k = get d k.
Proof.
  revert d. induction o as [|[k' v'] o IH]; intros d Hk; simpl; [done|].
  apply not_elem_of_cons in Hk as [? ?].
  rewrite IH by done. by apply get_setitem_ne.
Qed.

Lemma get_update_in d o k v :
  dict_wf o → get o k = Some v → get (update d o) k = Some v.
Proof.
  unfold dict_wf, keys.
  revert d. induction o as [|[k' v'] o IH]; intros d Hwf Hget; simpl in *.
  - done.
  - apply NoDup_cons in Hwf as [Hk' Hwf].
    case_decide; simplify_eq.
    + rewrite get_update_notin by done. apply get_setitem_eq.
    + by apply IH.
Qed.

Lemma update_setitem_comm d o k v :
  k ∉ keys o → keys o ⊆ keys d →
  update (setitem d k v) o = setitem (update d o) k v.
Proof.
  revert d. induction o as [|[k' v'] o IH]; intros d Hk Hsub; simpl; [done|].
  apply not_elem_of_cons in Hk as [? ?].
  assert (k' ∈ keys d) as Hk' by (apply Hsub; left).
  rewrite <- (setitem_comm d k' k) by done.
  apply IH; [done|].
  rewrite keys_setitem_in by done. intros x Hx. apply Hsub. by right.
Qed.
End dict_facts.

(** ** Applying overrides *)

Section overrides.
Context {V : Type}.
Implicit Types (base d o p : dict V) (k : string) (v : V).

Lemma keys_update_covers d o : keys o ⊆ keys (update d o).
Proof.
  revert d. induction o as [|[k v] o IH]; intros d x Hx; simpl in *.
  - by apply elem_of_nil in Hx.
  - apply elem_of_cons in Hx as [->|Hx]; [|by apply IH].
    apply keys_update_subseteq, get_is_Some.
    rewrite get_setitem_eq. by eexists.
Qed.

Lemma update_idem d o : dict_wf o → update (update d o) o = update d o.
Proof.
  unfold dict_wf, keys.
  induction o as [|[k v] o IH] using rev_ind; intros Hwf; [done|].
  rewrite fmap_app in Hwf. apply NoDup_app in Hwf as (Hwf & Hk & _).
  assert (k ∉ keys o) as Hk'.
  { intros Hin. apply (Hk _ Hin). simpl. left. }
  rewrite !update_snoc.
  rewrite update_setitem_comm by (done || apply keys_update_covers).
  rewrite setitem_setitem. by rewrite IH.
Qed.
End overrides.

(** C1, as the spec has it, fails on the code: an override whose key [hue]
    the base does not have is applied without an error, [dict.update]
    storing it as a fifth item. *)
Lemma apply_overrides_unknown_key_not_rejected :
  let o := [("hue"%string, 0.3%float)] in
  (∃ k, k ∈ keys o ∧ k ∉ keys base0) ∧
  apply_overrides base0 (Some o) = Ok (base0 ++ o) ∧
  ¬ ∃ e, apply_overrides base0 (Some o) = Raise e.
Proof.
  simpl. split; [|split].
  - exists "hue"%string. split; [left|].
    unfold base0, keys. simpl. rewrite !not_elem_of_cons.
    repeat split; try discriminate. apply not_elem_of_nil.
  - reflexivity.
  - intros [e He]. discriminate He.
Qed.

(** C1 (amended): applying overrides never raises; a key of the overrides
    that the base does not have is added to the result with its override
    value, and every key of the base is kept. *)
Theorem apply_overrides_unknown_key_added {V} (base o : dict V) k v :
  dict_wf o → get o k = Some v → k ∉ keys base →
  ∃ p, apply_overrides base (Some o) = Ok p ∧
       get p k = Some v ∧ k ∈ keys p ∧ keys base ⊆ keys p.
Proof.
  intros Hwf Hget Hk. exists (update base o). split; [done|].
  assert (get (update base o) k = Some v) as Hp by by apply get_update_in.
  split; [done|]. split; [|apply keys_update_subseteq].
  apply get_is_Some. by eexists.
Qed.

Lemma apply_overrides_unknown_key_added_witness :
  ∃ p, apply_overrides base0 (Some [("hue"%string, 0.3%float)]) = Ok p ∧
       get p "hue"%string = Some 0.3%float ∧ "hue"%string ∈ keys p ∧
       keys base0 ⊆ keys p.
Proof.
  apply apply_overrides_unknown_key_added.
  - unfold dict_wf, keys. simpl. apply NoDup_singleton.
  - reflexivity.
  - unfold base0, keys. simpl. rewrite !not_elem_of_cons.
    repeat split; try discriminate. apply not_elem_of_nil.
Defined.

(** C6: when every key of the overrides is a key of the base, applying them
    returns a parameter set with the keys of the base, in which each key of
    the overrides has its override value and every other key has the value
    it had in the base. *)
Theorem apply_overrides_known_keys {V} (base o : dict V) :
  dict_wf o → keys o ⊆ keys base →
  ∃ p, apply_overrides base (Some o) = Ok p ∧
       keys p = keys base ∧
       (∀ k v, get o k = Some v → get p k = Some v) ∧
       (∀ k, k ∉ keys o → get p k = get base k).
Proof.
  intros Hwf Hsub. exists (update base o). split; [done|].
  split; [by apply keys_update_known|]. split.
  - intros k v. by apply get_update_in.
  - intros k. by apply get_update_notin.
Qed.

Lemma apply_overrides_known_keys_witness :
  let o := [("noise_scale"%string, 20%float); ("major_radius"%string, 1%float)] in
  ∃ p, apply_overrides base0 (Some o) = Ok p ∧
       keys p = keys base0 ∧
       (∀ k v, get o k = Some v → get p k = Some v) ∧
       (∀ k, k ∉ keys o → get p k = get base0 k).
Proof.
  apply apply_overrides_known_keys.
  - unfold dict_wf, keys. simpl. apply NoDup_cons. split.
    + rewrite not_elem_of_cons. split; [discriminate | apply not_elem_of_nil].
    + apply NoDup_singleton.
  - unfold base0, keys. simpl. intros k Hk.
    repeat (apply elem_of_cons in Hk as [->|Hk]); [| |by apply elem_of_nil in Hk].
    + do 2 right. left.
    + left.
Defined.

(** C7: applying the same overrides a second time changes nothing. *)
Theorem apply_overrides_idempotent {V} (base : dict V) (overrides : option (dict V)) :
  (∀ o, overrides = Some o → dict_wf o) →
  (p ← apply_overrides base overrides; apply_overrides p overrides)
  = apply_overrides base overrides.
Proof.
  intros Hwf. destruct overrides as [o|]; simpl; [|done].
  unfold mbind, result_bind. f_equal. apply update_idem. by apply Hwf.
Qed.

Lemma apply_overrides_idempotent_witness :
  let overrides := Some [("hue"%string, 0.3%float); ("major_radius"%string, 1%float)] in
  (p ← apply_overrides base0 overrides; apply_overrides p overrides)
  = apply_overrides base0 overrides.
Proof.
  apply apply_overrides_idempotent. intros o [= <-].
  unfold dict_wf, keys. simpl. apply NoDup_cons. split.
  - rewrite not_elem_of_cons. split; [discriminate | apply not_elem_of_nil].
  - apply NoDup_singleton.
Defined.

(** ** The sweep *)

Section sweep_facts.
Context {V : Type}.
Implicit Types (ranges items : dict (list V)) (mid acc res : dict V).
Implicit Types (k : string) (v : list V).

Lemma list_subscript_mid v :
  v ≠ [] → ∃ x, v !! (length v / 2) = Some x ∧ list_subscript v (length v / 2) = Ok x.
Proof.
  intros Hv. destruct (v !! (length v / 2)) as [x|] eqn:Hx.
  - exists x. unfold list_subscript. by rewrite Hx.
  - apply lookup_ge_None in Hx.
    assert (0 < length v) as Hlen by (destruct v; [done | simpl; lia]).
    pose proof (Nat.div_lt (length v) 2 Hlen ltac:(lia)). lia.
Qed.

Lemma mid_vals_from_empty_range acc items k :
  (k, []) ∈ items → mid_vals_from acc items = Raise IndexError.
Proof.
  revert acc. induction items as [|[k' v] items IH]; intros acc Hin.
  - by apply elem_of_nil in Hin.
  - simpl. apply elem_of_cons in Hin as [Heq|Hin].
    + by simplify_eq.
    + unfold list_subscript. destruct (v !! _); simpl; [by apply IH | done].
Qed.

Lemma mid_vals_from_ok acc items :
  nonempty_ranges items → ∃ mid, mid_vals_from acc items = Ok mid.
Proof.
  revert acc. induction items as [|[k v] items IH]; intros acc Hne.
  - by eexists.
  - apply Forall_cons in Hne as [Hv Hne]. simpl in Hv.
    destruct (list_subscript_mid v Hv) as (x & _ & Hx).
    cbn [mid_vals_from]. rewrite Hx. by apply IH.
Qed.

Lemma mid_vals_from_spec acc items mid :
  NoDup (keys acc ++ keys items) →
  mid_vals_from acc items = Ok mid →
  keys mid = keys acc ++ keys items ∧
  (∀ k, k ∉ keys items → get mid k = get acc k) ∧
  (∀ k v, (k, v) ∈ items → get mid k = v !! (length v / 2)).
Proof.
  revert acc. induction items as [|[k v] items IH]; intros acc Hnd Hmid.
  - simpl in Hmid. simplify_eq. unfold keys at 3. simpl. rewrite app_nil_r.
    split; [done|]. split; [done|]. intros k v Hin.
    by apply elem_of_nil in Hin.
  - cbn [mid_vals_from] in Hmid. unfold list_subscript in Hmid.
    destruct (v !! (length v / 2)) as [x|] eqn:Hx; simpl in Hmid; [|done].
    change (keys ((k, v) :: items)) with (k :: keys items) in *.
    assert ((k ∉ keys acc) ∧ (k ∉ keys items)) as [Hka Hki].
    { apply NoDup_app in Hnd as (_ & Hdisj & Hnd).
      apply NoDup_cons in Hnd as [? _]. split; [|done].
      intros Hin. apply (Hdisj _ Hin). left. }
    apply IH in Hmid as (Hkeys & Hout & Hin).
    + rewrite keys_setitem_notin in Hkeys by done.
      rewrite <- app_assoc in Hkeys. split; [done|]. split.
      * intros k' Hk'. apply not_elem_of_cons in Hk' as [? ?].
        rewrite Hout by done. by apply get_setitem_ne.
      * intros k' v' Hel. apply elem_of_cons in Hel as [?|Hel]; simplify_eq.
        -- rewrite Hout by done. rewrite get_setitem_eq. done.
        -- by apply Hin.
    + rewrite keys_setitem_notin by done. by rewrite <- app_assoc.
Qed.

Lemma length_sweep_steps mid ranges :
  length (sweep_steps mid ranges) = total ranges.
Proof.
  unfold sweep_steps, total.
  induction ranges as [|[k v] ranges IH]; [done|].
  rewrite bind_cons, length_app, IH. simpl. f_equal.
  clear. induction v as [|vi v IH]; [done|].
  rewrite bind_cons. simpl. by rewrite IH.
Qed.

Lemma total_sum_lengths ranges :
  total ranges = sum_list (length <$> ranges.*2).
Proof.
  unfold total. induction ranges as [|[k v] ranges IH]; [done|].
  simpl. by rewrite IH.
Qed.

Lemma elem_of_sweep_steps mid ranges res :
  res ∈ sweep_steps mid ranges ↔
  ∃ k v vi, (k, v) ∈ ranges ∧ vi ∈ v ∧ res = setitem (copy mid) k vi.
Proof.
  unfold sweep_steps. rewrite list_elem_of_bind. split.
  - intros ([k v] & Hres & Hkv). apply list_elem_of_bind in Hres as (vi & Hres & Hvi).
    apply list_elem_of_singleton in Hres. by exists k, v, vi.
  - intros (k & v & vi & Hkv & Hvi & ->). exists (k, v). split; [|done].
    apply list_elem_of_bind. exists vi. split; [|done]. by apply list_elem_of_singleton.
Qed.
End sweep_facts.

(** C2, as the spec has it, fails on the code: with no candidate for
    [minor_radius] the enumeration does not succeed; the first [next] raises
    [IndexError], and the three steps of [major_radius] are not produced
    either. *)
Lemma iter_overrides_empty_range_not_silent :
  ("minor_radius"%string, []) ∈ ranges_hole ∧
  iter_overrides ranges_hole = Raise IndexError ∧
  next ∅ (Created ranges_hole) = (∅, Finished, Raised IndexError) ∧
  ¬ ∃ ys, iter_overrides ranges_hole = Ok ys.
Proof.
  split; [right; left|]. split; [reflexivity|]. split; [reflexivity|].
  intros [ys Hys]. discriminate Hys.
Qed.

(** C2 (amended): when some parameter of the RangeSpec has no candidate,
    the enumeration raises [IndexError] at the first [next], while the
    midpoints are computed, and no OverrideSet is yielded for any
    parameter. *)
Theorem iter_overrides_empty_range {V} (ranges : dict (list V)) k :
  (k, []) ∈ ranges →
  iter_overrides ranges = Raise IndexError ∧
  ∀ h, next h (Created ranges) = (h, Finished, Raised IndexError).
Proof.
  intros Hin.
  assert (mid_vals ranges = Raise IndexError) as Hmid
    by by eapply mid_vals_from_empty_range.
  split.
  - unfold iter_overrides. by rewrite Hmid.
  - intros h. simpl. by rewrite Hmid.
Qed.

Lemma iter_overrides_empty_range_witness :
  iter_overrides ranges_hole = Raise IndexError ∧
  ∀ h, next h (Created ranges_hole) = (h, Finished, Raised IndexError).
Proof.
  apply (iter_overrides_empty_range ranges_hole "minor_radius"%string).
  right; left.
Defined.

(** C3: when every parameter has at least one candidate, the enumeration
    ends without an exception and yields as many OverrideSets as there are
    candidates: the sum of the lengths of the candidate lists. *)
Theorem iter_overrides_count {V} (ranges : dict (list V)) :
  nonempty_ranges ranges →
  ∃ ys, iter_overrides ranges = Ok ys ∧
        length ys = sum_list (length <$> ranges.*2).
Proof.
  intros Hne. destruct (mid_vals_from_ok [] ranges Hne) as [mid Hmid].
  exists (sweep_steps mid ranges). split.
  - unfold iter_overrides, mid_vals. by rewrite Hmid.
  - rewrite length_sweep_steps. apply total_sum_lengths.
Qed.

Lemma iter_overrides_count_witness :
  ∃ ys, iter_overrides ranges_demo = Ok ys ∧
        length ys = sum_list (length <$> ranges_demo.*2).
Proof.
  apply iter_overrides_count.
  unfold nonempty_ranges, ranges_demo.
  repeat (apply Forall_cons; split; [discriminate|]). apply Forall_nil_2.
Defined.

(** C4: when every parameter has at least one candidate, the midpoint
    dictionary holds [v[len(v)//2]] for each parameter, and every OverrideSet
    yielded has one parameter whose value is a candidate of that parameter's
    own list, while each other parameter has its midpoint value. *)
Theorem iter_overrides_one_factor {V} (ranges : dict (list V)) :
  dict_wf ranges → nonempty_ranges ranges →
  ∃ mid ys,
    mid_vals ranges = Ok mid ∧ iter_overrides ranges = Ok ys ∧
    (∀ k v, (k, v) ∈ ranges → get mid k = v !! (length v / 2)) ∧
    ∀ res, res ∈ ys →
      ∃ k v vi, (k, v) ∈ ranges ∧ vi ∈ v ∧ get res k = Some vi ∧
                ∀ k', k' ≠ k → get res k' = get mid k'.
Proof.
  intros Hwf Hne. destruct (mid_vals_from_ok [] ranges Hne) as [mid Hmid].
  exists mid, (sweep_steps mid ranges).
  split; [done|]. split; [unfold iter_overrides, mid_vals; by rewrite Hmid|].
  apply mid_vals_from_spec in Hmid as (_ & _ & Hmidpoint); [|done].
  split; [done|]. intros res Hres.
  apply elem_of_sweep_steps in Hres as (k & v & vi & Hkv & Hvi & ->).
  exists k, v, vi. split; [done|]. split; [done|]. unfold copy. split.
  - apply get_setitem_eq.
  - intros k' Hk'. by apply get_setitem_ne.
Qed.

Lemma iter_overrides_one_factor_witness :
  ∃ mid ys,
    mid_vals ranges_demo = Ok mid ∧ iter_overrides ranges_demo = Ok ys ∧
    (∀ k v, (k, v) ∈ ranges_demo → get mid k = v !! (length v / 2)) ∧
    ∀ res, res ∈ ys →
      ∃ k v vi, (k, v) ∈ ranges_demo ∧ vi ∈ v ∧ get res k = Some vi ∧
                ∀ k', k' ≠ k → get res k' = get mid k'.
Proof.
  apply iter_overrides_one_factor.
  - unfold dict_wf, keys, ranges_demo. simpl. apply NoDup_cons. split.
    + rewrite not_elem_of_cons. split; [discriminate | apply not_elem_of_nil].
    + apply NoDup_singleton.
  - unfold nonempty_ranges, ranges_demo.
    repeat (apply Forall_cons; split; [discriminate|]). apply Forall_nil_2.
Defined.

(** C5: the RangeSpec [{major_radius: [1, 1.5, 2], minor_radius: [0.1, 0.55, 1]}]
    yields six OverrideSets; the first is
    [{major_radius: 1, minor_radius: 0.55}] and the fourth is
    [{major_radius: 1.5, minor_radius: 0.1}]. *)
Theorem iter_overrides_demo :
  ∃ ys, iter_overrides ranges_demo = Ok ys ∧
        length ys = 6 ∧
        ys !! 0 = Some [("major_radius"%string, 1%float);
                        ("minor_radius"%string, 0.55%float)] ∧
        ys !! 3 = Some [("major_radius"%string, 1.5%float);
                        ("minor_radius"%string, 0.1%float)].
Proof. eexists. repeat split; reflexivity. Qed.

(** ** The sampler *)

Lemma SFleb_refl (a : spec_float) : a ≠ S754_nan → SFleb a a = true.
Proof.
  unfold SFleb, SFcompare. intros Hnan.
  destruct a as [s|s| |s m e]; try done;
    destruct s; rewrite ?Z.compare_refl, ?Pos.compare_cont_refl; done.
Qed.

Lemma leb_refl_l (lo hi : float) :
  (lo <=? hi)%float = true → (lo <=? lo)%float = true.
Proof.
  rewrite !leb_spec. intros H. apply SFleb_refl. intros Hnan.
  rewrite Hnan in H. done.
Qed.

Lemma leb_refl_r (lo hi : float) :
  (lo <=? hi)%float = true → (hi <=? hi)%float = true.
Proof.
  rewrite !leb_spec. intros H. apply SFleb_refl. intros Hnan.
  rewrite Hnan in H. by destruct (Prim2SF lo).
Qed.

Lemma toy_uniform_in_interval : uniform_in_interval toy_uniform.
Proof.
  intros lo hi g Hle. unfold toy_uniform, between. simpl.
  destruct (Z.even g); apply andb_true_iff; split;
    eauto using leb_refl_l, leb_refl_r.
Qed.

Section sampler_facts.
Context {rng : Type}.
Variable np_seed : Z → rng.
Variable np_uniform : float → float → state rng float.
Variable on_exit : rng → rng → rng.

(** C8: when [np.random.uniform] returns values of the interval it is
    given, the parameter set of [sample_params] has the four keys
    [major_radius], [minor_radius], [noise_scale], [noise_distortion] and
    no other, with values in [[1,2]], [[0.1,1]], [[1,20]] and [[0,5]]. *)
Theorem sample_params_in_range (g : rng) :
  uniform_in_interval np_uniform →
  let params := (sample_params np_uniform g).1 in
  keys params = [ "major_radius"; "minor_radius";
                  "noise_scale"; "noise_distortion" ]%string ∧
  ∃ a b c d,
    params = [ ("major_radius"%string, a); ("minor_radius"%string, b);
               ("noise_scale"%string, c); ("noise_distortion"%string, d) ] ∧
    between 1 2 a = true ∧ between 0.1 1 b = true ∧
    between 1 20 c = true ∧ between 0 5 d = true.
Proof.
  intros Hu. unfold sample_params, mbind, state_bind, mret, state_ret.
  pose proof (Hu 1 2 g eq_refl)%float as Ha.
  destruct (np_uniform 1 2 g) as [a g1].
  pose proof (Hu 0.1 1 g1 eq_refl)%float as Hb.
  destruct (np_uniform 0.1 1 g1) as [b g2].
  pose proof (Hu 1 20 g2 eq_refl)%float as Hc.
  destruct (np_uniform 1 20 g2) as [c g3].
  pose proof (Hu 0 5 g3 eq_refl)%float as Hd.
  destruct (np_uniform 0 5 g3) as [d g4].
  simpl in *. split; [done|]. by exists a, b, c, d.
Qed.

(** C9: the parameter set that [MyAsset.__init__] leaves depends on the
    seed and the overrides only, not on the state the process-wide random
    source was in: two constructions with the same [factory_seed] give the
    same parameter set. *)
Theorem MyAsset_init_deterministic (factory_seed : Z)
    (overrides : option (dict float)) (g1 g2 : rng) :
  (MyAsset_init np_seed np_uniform on_exit factory_seed overrides g1).1
  = (MyAsset_init np_seed np_uniform on_exit factory_seed overrides g2).1.
Proof.
  unfold MyAsset_init, FixedSeed.
  set (body := mbind _ _). by destruct (body (np_seed factory_seed)).
Qed.
End sampler_facts.

Lemma MyAsset_init_deterministic_witness :
  (MyAsset_init toy_seed toy_uniform (λ g _, g) 42 None 0%Z).1
  = (MyAsset_init toy_seed toy_uniform (λ g _, g) 42 None 1%Z).1.
Proof. apply MyAsset_init_deterministic. Defined.

(** Outside the fixed-seed block the draws do depend on the state of the
    process-wide source. *)
Example sample_params_reads_ambient_state :
  (sample_params toy_uniform 0%Z).1 ≠ (sample_params toy_uniform 1%Z).1.
Proof.
  intros H.
  apply (f_equal (λ d, from_option (λ x, x <=? 1)%float true (get d "major_radius"%string))) in H.
  vm_compute in H. discriminate H.
Qed.

Lemma sample_params_in_range_witness :
  let params := (sample_params toy_uniform 7%Z).1 in
  keys params = [ "major_radius"; "minor_radius";
                  "noise_scale"; "noise_distortion" ]%string ∧
  ∃ a b c d,
    params = [ ("major_radius"%string, a); ("minor_radius"%string, b);
               ("noise_scale"%string, c); ("noise_distortion"%string, d) ] ∧
    between 1 2 a = true ∧ between 0.1 1 b = true ∧
    between 1 20 c = true ∧ between 0 5 d = true.
Proof.
  apply (sample_params_in_range toy_uniform 7%Z).
  exact toy_uniform_in_interval.
Defined.

(** ** The generator and its consumer *)

Section generator_facts.
Context {V : Type}.
Implicit Types (h : heap V) (m r : loc) (mid res : dict V).
Implicit Types (ranges outer : dict (list V)) (seen : list loc).

Lemma bind_singleton_fmap {A B} (f : A → B) (l : list A) :
  (x ← l; [f x]) = f <$> l.
Proof.
  induction l as [|x l IH]; [done|].
  rewrite bind_cons, fmap_cons. simpl. by rewrite IH.
Qed.

Lemma next_suspended_nil h m k k' v outer :
  next h (Suspended m k [] ((k', v) :: outer)) = next h (Suspended m k' v outer).
Proof. by destruct v. Qed.

Lemma next_yield h m mid k vi inner outer :
  h !! m = Some mid →
  next h (Suspended m k (vi :: inner) outer)
  = (<[fresh (dom h) := setitem mid k vi]> h, Suspended m k inner outer,
     Yield (fresh (dom h))).
Proof.
  intros Hm. simpl. unfold yield_step, alloc.
  rewrite alter_insert_eq, (lookup_total_correct _ _ _ Hm). done.
Qed.

Lemma drive_suspended_nil fuel client h m k k' v outer seen :
  drive fuel client h (Suspended m k [] ((k', v) :: outer)) seen
  = drive fuel client h (Suspended m k' v outer) seen.
Proof. destruct fuel; [done|]. cbn [drive]. by rewrite next_suspended_nil. Qed.

Lemma gen_inv_yield (client : consumer V) h m mid seen d :
  consumer_ok client → gen_inv h m mid seen →
  let r := fresh (dom h) in
  (r ∉ seen) ∧ r ≠ m ∧
  gen_inv (client (seen ++ [r]) (<[r := d]> h)) m mid (seen ++ [r]).
Proof.
  intros Hok (Hm & Hms & Hnd & Hlive) r.
  assert (r ∉ dom h) as Hr by apply is_fresh.
  assert (r ∉ seen) as Hrs by (intros ?; by apply Hr, Hlive).
  assert (r ≠ m) as Hrm by (intros ->; apply Hr; by eapply elem_of_dom_2).
  assert (m ∉ seen ++ [r]) as Hms'.
  { rewrite elem_of_app, list_elem_of_singleton. intros [?|?]; by auto. }
  split; [done|]. split; [done|]. split; [|split; [done|split]].
  - assert (<[r:=d]> h !! m = Some mid) as Hm' by by rewrite lookup_insert_ne.
    destruct (Hok (seen ++ [r]) (<[r:=d]> h) m) as [_ Hsame].
    { by eapply elem_of_dom_2. }
    by rewrite Hsame.
  - apply NoDup_app. split; [done|]. split; [|apply NoDup_singleton].
    intros l Hl Hl'. apply list_elem_of_singleton in Hl'. by subst.
  - intros l Hl. apply (Hok (seen ++ [r]) (<[r:=d]> h) l).
    rewrite dom_insert_L. apply elem_of_app in Hl as [Hl|Hl].
    + apply elem_of_union_r. by apply Hlive.
    + apply list_elem_of_singleton in Hl as ->. apply elem_of_union_l.
      by apply elem_of_singleton.
Qed.

Lemma resumes_nil_nil client m mid k : resumes client m mid k [] [].
Proof.
  intros fuel h seen Hinv Hfuel. destruct fuel; [lia|].
  exists []. simpl. rewrite app_nil_r.
  split; [done|]. split; [done|]. split; [apply Hinv|].
  intros r Hr. by apply elem_of_nil in Hr.
Qed.

Lemma resumes_nil_cons client m mid k k' v outer :
  resumes client m mid k' v outer →
  resumes client m mid k [] ((k', v) :: outer).
Proof.
  intros IH fuel h seen Hinv Hfuel. rewrite drive_suspended_nil.
  destruct (IH fuel h seen Hinv) as (ys & Hd & Hys & Hrest).
  { unfold total in *. simpl in *. lia. }
  exists ys. split; [done|]. split; [|done].
  rewrite Hys. unfold sweep_steps. rewrite bind_cons. simpl.
  by rewrite bind_singleton_fmap.
Qed.

Lemma resumes_cons client m mid k vi inner outer :
  consumer_ok client →
  resumes client m mid k inner outer →
  resumes client m mid k (vi :: inner) outer.
Proof.
  intros Hok IH fuel h seen Hinv Hfuel.
  destruct fuel as [|fuel]; [simpl in Hfuel; lia|].
  cbn [drive]. rewrite (next_yield h m mid) by apply Hinv.
  set (r := fresh (dom h)). set (res := setitem mid k vi).
  destruct (gen_inv_yield client h m mid seen res Hok Hinv) as (Hrs & Hrm & Hinv').
  fold r in Hinv'.
  destruct (IH fuel _ _ Hinv') as (ys & Hd & Hys & Hnd & Hfresh).
  { simpl in Hfuel. lia. }
  rewrite Hd. simpl. rewrite lookup_total_insert_eq.
  exists ((r, res) :: ys). split; [done|]. split; [|split].
  - rewrite !fmap_cons, Hys. done.
  - rewrite fmap_cons. by rewrite <- app_assoc in Hnd.
  - intros r' Hr'. rewrite fmap_cons in Hr'. apply elem_of_cons in Hr' as [->|Hr'].
    + apply is_fresh.
    + intros Hin. apply (Hfresh r' Hr').
      apply (Hok (seen ++ [r]) (<[r:=res]> h) r').
      by apply dom_insert_subseteq.
Qed.

Lemma drive_suspended client m mid outer inner k :
  consumer_ok client → resumes client m mid k inner outer.
Proof.
  intros Hok. revert inner k.
  induction outer as [|[k' v] outer IHo]; intros inner k;
    induction inner as [|vi inner IHi];
    auto using resumes_nil_nil, resumes_nil_cons, resumes_cons.
Qed.
End generator_facts.

Section fresh_yields.
Context {V : Type}.
Implicit Types (h : heap V) (ranges : dict (list V)).

Lemma drive_created fuel (client : consumer V) h ranges mid k seen :
  mid_vals ranges = Ok mid →
  drive fuel client h (Created ranges) seen
  = drive fuel client (<[fresh (dom h) := mid]> h)
      (Suspended (fresh (dom h)) k [] ranges) seen.
Proof.
  intros Hmid. destruct fuel; [done|]. cbn [drive next]. by rewrite Hmid.
Qed.

Lemma keys_sweep_steps ranges mid res :
  dict_wf ranges → mid_vals ranges = Ok mid →
  res ∈ sweep_steps mid ranges → keys res = keys ranges.
Proof.
  intros Hwf Hmid Hres.
  apply mid_vals_from_spec in Hmid as (Hkeys & _); [|done]. simpl in Hkeys.
  apply elem_of_sweep_steps in Hres as (k & v & vi & Hkv & _ & ->).
  unfold copy. rewrite keys_setitem_in; [done|]. rewrite Hkeys.
  by apply (list_elem_of_fmap_2 fst) in Hkv.
Qed.

Lemma clearing_client_ok : consumer_ok (@clearing_client V).
Proof.
  intros seen h l Hl. unfold clearing_client.
  induction seen as [|r seen IH]; simpl; [done|].
  destruct IH as [IHdom IHsame]. split.
  - by apply dom_insert_subseteq.
  - intros Hne. apply not_elem_of_cons in Hne as [? ?].
    rewrite lookup_insert_ne by done. by apply IHsame.
Qed.

(** C10: when every parameter has at least one candidate, the consumer of
    the generator receives, whatever it does to the dictionaries it has
    been given, exactly the OverrideSets of the enumeration; each comes
    under a reference of its own, not used by any object that existed
    before, and has the keys of the RangeSpec, in the same order. *)
Theorem iter_overrides_yields_fresh ranges (client : consumer V) h (fuel : nat) :
  dict_wf ranges → nonempty_ranges ranges →
  consumer_ok client → total ranges < fuel →
  ∃ ys, drive fuel client h (Created ranges) [] = Some (ys, None) ∧
        iter_overrides ranges = Ok ys.*2 ∧
        NoDup ys.*1 ∧
        (∀ r, r ∈ ys.*1 → r ∉ dom h) ∧
        (∀ res, res ∈ ys.*2 → keys res = keys ranges).
Proof.
  intros Hwf Hne Hok Hfuel.
  destruct (mid_vals_from_ok [] ranges Hne) as [mid Hmid].
  rewrite (drive_created _ _ _ _ mid ""%string) by done.
  set (m := fresh (dom h)).
  destruct (drive_suspended client m mid ranges [] ""%string Hok fuel
              (<[m:=mid]> h) []) as (ys & Hd & Hys & Hnd & Hfresh).
  { split; [apply lookup_insert_eq|]. split; [apply not_elem_of_nil|].
    split; [apply NoDup_nil_2|]. intros l Hl. by apply elem_of_nil in Hl. }
  { done. }
  exists ys. simpl in Hys, Hnd. split; [done|]. split; [|split; [done|split]].
  - unfold iter_overrides, mid_vals. rewrite Hmid, Hys. done.
  - intros r Hr Hin. apply (Hfresh r Hr). by apply dom_insert_subseteq.
  - intros res Hres. rewrite Hys in Hres. by eapply keys_sweep_steps.
Qed.
End fresh_yields.

Lemma iter_overrides_yields_fresh_witness :
  ∃ ys, drive 7 clearing_client ∅ (Created ranges_demo) [] = Some (ys, None) ∧
        iter_overrides ranges_demo = Ok ys.*2 ∧
        NoDup ys.*1 ∧
        (∀ r, r ∈ ys.*1 → r ∉ dom (∅ : heap float)) ∧
        (∀ res, res ∈ ys.*2 → keys res = keys ranges_demo).
Proof.
  apply iter_overrides_yields_fresh.
  - unfold dict_wf, keys, ranges_demo. simpl. apply NoDup_cons. split.
    + rewrite not_elem_of_cons. split; [discriminate | apply not_elem_of_nil].
    + apply NoDup_singleton.
  - unfold nonempty_ranges, ranges_demo.
    repeat (apply Forall_cons; split; [discriminate|]). apply Forall_nil_2.
  - apply clearing_client_ok.
  - unfold total, ranges_demo. simpl. lia.
Defined.

(** * Further properties *)

(** ** Positions and values of the sweep *)

Section sweep_positions.
Context {V : Type}.
Implicit Types (ranges pre post : dict (list V)) (mid res : dict V).
Implicit Types (k : string) (v : list V).

Lemma setitem_get_id (d : dict V) k x : get d k = Some x → setitem d k x = d.
Proof.
  induction d as [|[k' v'] d IH]; simpl; [done|].
  case_decide; intros Hget; simplify_eq; [done|]. by rewrite IH.
Qed.

Lemma sweep_steps_app mid pre post :
  sweep_steps mid (pre ++ post) = sweep_steps mid pre ++ sweep_steps mid post.
Proof. unfold sweep_steps. apply bind_app. Qed.

Lemma sweep_steps_cons mid k v post :
  sweep_steps mid ((k, v) :: post)
  = ((λ vi, setitem (copy mid) k vi) <$> v) ++ sweep_steps mid post.
Proof.
  unfold sweep_steps. rewrite bind_cons. simpl. by rewrite bind_singleton_fmap.
Qed.

Lemma sweep_steps_lookup mid pre k v post j vi :
  v !! j = Some vi →
  sweep_steps mid (pre ++ (k, v) :: post) !! (total pre + j)
  = Some (setitem mid k vi).
Proof.
  intros Hj. rewrite sweep_steps_app, sweep_steps_cons.
  rewrite lookup_app_r by (rewrite length_sweep_steps; lia).
  rewrite length_sweep_steps.
  replace (total pre + j - total pre) with j by lia.
  rewrite lookup_app_l.
  - rewrite list_lookup_fmap, Hj. done.
  - rewrite length_fmap. by eapply lookup_lt_Some.
Qed.

Lemma iter_overrides_ok ranges :
  nonempty_ranges ranges →
  ∃ mid, mid_vals ranges = Ok mid ∧
         iter_overrides ranges = Ok (sweep_steps mid ranges).
Proof.
  intros Hne. destruct (mid_vals_from_ok [] ranges Hne) as [mid Hmid].
  exists mid. split; [done|]. unfold iter_overrides, mid_vals. by rewrite Hmid.
Qed.

(** X1: the step for the [j]-th candidate of a parameter comes at the
    position counted by the candidates of the parameters before it, plus
    [j]; it is the midpoint dictionary with that candidate stored. *)
Theorem iter_overrides_position pre k v post j vi :
  nonempty_ranges (pre ++ (k, v) :: post) →
  v !! j = Some vi →
  ∃ mid ys,
    mid_vals (pre ++ (k, v) :: post) = Ok mid ∧
    iter_overrides (pre ++ (k, v) :: post) = Ok ys ∧
    ys !! (sum_list (length <$> pre.*2) + j) = Some (setitem mid k vi).
Proof.
  intros Hne Hj. destruct (iter_overrides_ok _ Hne) as (mid & Hmid & Hys).
  exists mid, (sweep_steps mid (pre ++ (k, v) :: post)).
  split; [done|]. split; [done|].
  rewrite <- total_sum_lengths. by apply sweep_steps_lookup.
Qed.

Lemma sweep_steps_midpoint mid pre k v post :
  dict_wf (pre ++ (k, v) :: post) → v ≠ [] →
  mid_vals (pre ++ (k, v) :: post) = Ok mid →
  sweep_steps mid (pre ++ (k, v) :: post) !! (total pre + length v / 2) = Some mid.
Proof.
  intros Hwf Hv Hmid.
  destruct (list_subscript_mid v Hv) as (x & Hx & _).
  apply mid_vals_from_spec in Hmid as (_ & _ & Hmidpoint); [|done].
  assert (get mid k = Some x) as Hget.
  { rewrite <- Hx. apply Hmidpoint. apply elem_of_app. right. left. }
  rewrite (sweep_steps_lookup _ _ _ _ _ _ x Hx). by rewrite setitem_get_id.
Qed.

(** X2: the midpoint dictionary itself is yielded once for every
    parameter, at the middle of that parameter's steps. *)
Theorem iter_overrides_midpoint_repeated pre k v post :
  dict_wf (pre ++ (k, v) :: post) →
  nonempty_ranges (pre ++ (k, v) :: post) →
  ∃ mid ys,
    mid_vals (pre ++ (k, v) :: post) = Ok mid ∧
    iter_overrides (pre ++ (k, v) :: post) = Ok ys ∧
    ys !! (sum_list (length <$> pre.*2) + length v / 2) = Some mid.
Proof.
  intros Hwf Hne. destruct (iter_overrides_ok _ Hne) as (mid & Hmid & Hys).
  exists mid, (sweep_steps mid (pre ++ (k, v) :: post)).
  split; [done|]. split; [done|].
  assert (v ≠ []) as Hv.
  { apply Forall_app in Hne as [_ Hne]. by apply Forall_cons in Hne as [? _]. }
  rewrite <- total_sum_lengths. by apply sweep_steps_midpoint.
Qed.

(** X3: every value of every OverrideSet is a candidate of the parameter it
    is stored under. *)
Theorem iter_overrides_values_from_ranges ranges :
  dict_wf ranges → nonempty_ranges ranges →
  ∃ ys, iter_overrides ranges = Ok ys ∧
        ∀ res k x, res ∈ ys → get res k = Some x →
                   ∃ v, (k, v) ∈ ranges ∧ x ∈ v.
Proof.
  intros Hwf Hne. destruct (iter_overrides_ok _ Hne) as (mid & Hmid & Hys).
  exists (sweep_steps mid ranges). split; [done|].
  apply mid_vals_from_spec in Hmid as (Hkeys & _ & Hmidpoint); [|done].
  simpl in Hkeys.
  intros res k x Hres Hget.
  apply elem_of_sweep_steps in Hres as (k0 & v0 & vi & Hkv & Hvi & ->).
  unfold copy in Hget. destruct (decide (k0 = k)) as [->|Hne'].
  - rewrite get_setitem_eq in Hget. simplify_eq. by exists v0.
  - rewrite get_setitem_ne in Hget by done.
    assert (k ∈ keys ranges) as Hk.
    { rewrite <- Hkeys. apply get_is_Some. by eexists. }
    apply list_elem_of_fmap in Hk as ([k' v] & ? & Hin). simplify_eq. simpl in *.
    exists v. split; [done|].
    rewrite (Hmidpoint _ _ Hin) in Hget. by eapply list_elem_of_lookup_2.
Qed.
End sweep_positions.

Lemma iter_overrides_position_witness :
  ∃ mid ys,
    mid_vals ([("a"%string, [1; 2])] ++ ("b"%string, [3; 4; 5]) :: []) = Ok mid ∧
    iter_overrides ([("a"%string, [1; 2])] ++ ("b"%string, [3; 4; 5]) :: []) = Ok ys ∧
    ys !! (sum_list (length <$> [("a"%string, [1; 2])].*2) + 2)
    = Some (setitem mid "b"%string 5).
Proof.
  apply (iter_overrides_position [("a"%string, [1; 2])] "b"%string [3; 4; 5] [] 2 5).
  - repeat (apply Forall_cons; split; [discriminate|]). apply Forall_nil_2.
  - reflexivity.
Defined.

Lemma iter_overrides_midpoint_repeated_witness :
  ∃ mid ys,
    mid_vals ([("a"%string, [1; 2])] ++ ("b"%string, [3; 4; 5]) :: []) = Ok mid ∧
    iter_overrides ([("a"%string, [1; 2])] ++ ("b"%string, [3; 4; 5]) :: []) = Ok ys ∧
    ys !! (sum_list (length <$> [("a"%string, [1; 2])].*2) + length [3; 4; 5] / 2)
    = Some mid.
Proof.
  apply (iter_overrides_midpoint_repeated [("a"%string, [1; 2])] "b"%string [3; 4; 5] []).
  - unfold dict_wf, keys. simpl. apply NoDup_cons. split.
    + rewrite not_elem_of_cons. split; [discriminate | apply not_elem_of_nil].
    + apply NoDup_singleton.
  - repeat (apply Forall_cons; split; [discriminate|]). apply Forall_nil_2.
Defined.

Lemma iter_overrides_values_from_ranges_witness :
  ∃ ys, iter_overrides ranges_demo = Ok ys ∧
        ∀ res k x, res ∈ ys → get res k = Some x →
                   ∃ v, (k, v) ∈ ranges_demo ∧ x ∈ v.
Proof.
  apply iter_overrides_values_from_ranges.
  - unfold dict_wf, keys, ranges_demo. simpl. apply NoDup_cons. split.
    + rewrite not_elem_of_cons. split; [discriminate | apply not_elem_of_nil].
    + apply NoDup_singleton.
  - unfold nonempty_ranges, ranges_demo.
    repeat (apply Forall_cons; split; [discriminate|]). apply Forall_nil_2.
Defined.

(** X4: with two parameters or more, the enumeration yields the midpoint
    dictionary more than once: its steps are not pairwise different. *)
Theorem iter_overrides_has_duplicates {V} (ranges : dict (list V)) :
  dict_wf ranges → nonempty_ranges ranges → 2 ≤ length ranges →
  ∃ ys, iter_overrides ranges = Ok ys ∧ ¬ NoDup ys.
Proof.
  intros Hwf Hne Hlen.
  destruct ranges as [|[k1 v1] [|[k2 v2] rest]]; simpl in Hlen; try lia.
  destruct (iter_overrides_ok _ Hne) as (mid & Hmid & Hys).
  apply Forall_cons in Hne as [Hv1 Hne]. apply Forall_cons in Hne as [Hv2 _].
  simpl in Hv1, Hv2.
  pose proof (sweep_steps_midpoint mid [] k1 v1 ((k2, v2) :: rest) Hwf Hv1 Hmid) as H1.
  pose proof (sweep_steps_midpoint mid [(k1, v1)] k2 v2 rest Hwf Hv2 Hmid) as H2.
  eexists. split; [done|]. intros Hnd.
  pose proof (NoDup_lookup _ _ _ _ Hnd H1 H2) as Heq.
  assert (0 < length v1) as Hpos by (destruct v1; [done | simpl; lia]).
  pose proof (Nat.div_lt (length v1) 2 Hpos ltac:(lia)).
  unfold total in Heq. cbn [sum_list_with snd] in Heq. lia.
Qed.

Lemma iter_overrides_has_duplicates_witness :
  ∃ ys, iter_overrides ranges_demo = Ok ys ∧ ¬ NoDup ys.
Proof.
  apply iter_overrides_has_duplicates.
  - unfold dict_wf, keys, ranges_demo. simpl. apply NoDup_cons. split.
    + rewrite not_elem_of_cons. split; [discriminate | apply not_elem_of_nil].
    + apply NoDup_singleton.
  - unfold nonempty_ranges, ranges_demo.
    repeat (apply Forall_cons; split; [discriminate|]). apply Forall_nil_2.
  - unfold ranges_demo. simpl. lia.
Defined.

(** ** Overrides, composition and the reads of the asset *)

(** X5: after the overrides are applied, a key of the overrides holds its
    override value and any other key holds what the base had, whether or
    not the base had the key. *)
Theorem apply_overrides_lookup {V} (base o : dict V) :
  dict_wf o →
  ∃ p, apply_overrides base (Some o) = Ok p ∧
       ∀ k, get p k = from_option Some (get base k) (get o k).
Proof.
  intros Hwf. exists (update base o). split; [done|]. intros k.
  destruct (get o k) as [v|] eqn:Hk; simpl.
  - by apply get_update_in.
  - apply get_update_notin. by apply get_None.
Qed.

Lemma apply_overrides_lookup_witness :
  ∃ p, apply_overrides base0 (Some [("hue"%string, 0.3%float)]) = Ok p ∧
       ∀ k, get p k
            = from_option Some (get base0 k) (get [("hue"%string, 0.3%float)] k).
Proof.
  apply apply_overrides_lookup. unfold dict_wf, keys. simpl. apply NoDup_singleton.
Defined.

Section composition.
Context {rng : Type}.
Variable np_seed : Z → rng.
Variable np_uniform : float → float → state rng float.
Variable np_randint : Z → Z → state rng Z.
Variable on_exit : rng → rng → rng.
Implicit Types (g : rng) (o p : dict float) (overrides : option (dict float)).

Lemma sample_params_shape g :
  ∃ a b c d,
    (sample_params np_uniform g).1
    = [ ("major_radius"%string, a); ("minor_radius"%string, b);
        ("noise_scale"%string, c); ("noise_distortion"%string, d) ] ∧
    a = (np_uniform 1 2 g).1.
Proof.
  unfold sample_params, mbind, state_bind, mret, state_ret.
  destruct (np_uniform 1 2 g) as [a g1].
  destruct (np_uniform 0.1 1 g1)%float as [b g2].
  destruct (np_uniform 1 20 g2) as [c g3].
  destruct (np_uniform 0 5 g3) as [d g4].
  by exists a, b, c, d.
Qed.

Lemma keys_sampled factory_seed :
  keys (sampled np_seed np_uniform factory_seed) = param_names.
Proof.
  unfold sampled.
  destruct (sample_params_shape (np_seed factory_seed)) as (a & b & c & d & -> & _).
  done.
Qed.

Lemma MyAsset_init_params factory_seed overrides g :
  (MyAsset_init np_seed np_uniform on_exit factory_seed overrides g).1
  = apply_overrides (sampled np_seed np_uniform factory_seed) overrides.
Proof.
  unfold MyAsset_init, FixedSeed, sampled, mbind, state_bind, mret, state_ret.
  by destruct (sample_params np_uniform (np_seed factory_seed)).
Qed.

Lemma compose_scene_params overrides g :
  (compose_scene np_seed np_uniform np_randint on_exit overrides g).1
  = apply_overrides (sampled np_seed np_uniform (np_randint 0 10000000 g).1) overrides.
Proof.
  unfold compose_scene, mbind at 1 2, state_bind, mret, state_ret.
  destruct (np_randint 0 10000000 g) as [factory_seed g1]. simpl.
  pose proof (MyAsset_init_params factory_seed None g1) as Hinit.
  destruct (MyAsset_init _ _ _ factory_seed None g1) as [r g2].
  simpl in *. subst r. done.
Qed.

(** X6: [compose_scene], which builds the factory without overrides and
    updates its parameters afterwards, ends with the parameters that
    [MyAsset.__init__] leaves when it is given the same overrides and the
    factory seed [compose_scene] drew. *)
Theorem compose_scene_as_init overrides g :
  (compose_scene np_seed np_uniform np_randint on_exit overrides g).1
  = (MyAsset_init np_seed np_uniform on_exit
       (np_randint 0 10000000 g).1 overrides (np_randint 0 10000000 g).2).1.
Proof. by rewrite compose_scene_params, MyAsset_init_params. Qed.
End composition.

Section asset_reads.
Context {rng : Type}.
Variable np_seed : Z → rng.
Variable np_uniform : float → float → state rng float.
Variable np_randint : Z → Z → state rng Z.
Variable on_exit : rng → rng → rng.
Implicit Types (g : rng) (o p : dict float) (overrides : option (dict float)).

Lemma sampled_in_range factory_seed k lo hi :
  uniform_in_interval np_uniform →
  (k, (lo, hi)) ∈ param_intervals →
  ∃ x, get (sampled np_seed np_uniform factory_seed) k = Some x ∧
       between lo hi x = true.
Proof.
  intros Hu Hk. unfold sampled, sample_params, mbind, state_bind, mret, state_ret.
  generalize (np_seed factory_seed). intros g.
  pose proof (Hu 1 2 g eq_refl)%float as Ha.
  destruct (np_uniform 1 2 g) as [a g1].
  pose proof (Hu 0.1 1 g1 eq_refl)%float as Hb.
  destruct (np_uniform 0.1 1 g1)%float as [b g2].
  pose proof (Hu 1 20 g2 eq_refl)%float as Hc.
  destruct (np_uniform 1 20 g2) as [c g3].
  pose proof (Hu 0 5 g3 eq_refl)%float as Hd.
  destruct (np_uniform 0 5 g3) as [d g4].
  simpl in Ha, Hb, Hc, Hd. unfold param_intervals in Hk.
  repeat (apply elem_of_cons in Hk as [Hk|Hk]; [simplify_eq; eexists; split; [reflexivity|done]|]).
  by apply elem_of_nil in Hk.
Qed.

(** X7: when the overrides name all four parameters, the parameters of the
    composed asset are the overrides, key for key: nothing of the random
    draw is left in them. *)
Theorem compose_scene_fully_overridden o g :
  dict_wf o → (∀ k, k ∈ param_names → k ∈ keys o) →
  ∃ p, (compose_scene np_seed np_uniform np_randint on_exit (Some o) g).1 = Ok p ∧
       ∀ k, get p k = get o k.
Proof.
  intros Hwf Hcover. rewrite compose_scene_params. eexists. split; [done|].
  intros k. destruct (get o k) as [v|] eqn:Hk.
  - by apply get_update_in.
  - apply get_None in Hk. rewrite get_update_notin by done.
    apply get_None. rewrite keys_sampled. eauto.
Qed.

(** X8: under [np.random.uniform]'s contract, each of the four parameters
    of the composed asset is the override value when the overrides name it,
    and a value of its sampling interval otherwise.  An override value is
    taken as it is, inside the interval or not. *)
Theorem compose_scene_overridden_or_in_range overrides g k lo hi :
  uniform_in_interval np_uniform →
  (∀ o, overrides = Some o → dict_wf o) →
  (k, (lo, hi)) ∈ param_intervals →
  ∃ p x, (compose_scene np_seed np_uniform np_randint on_exit overrides g).1 = Ok p ∧
         get p k = Some x ∧
         match overrides ≫= (λ o, get o k) with
         | Some y => x = y
         | None => between lo hi x = true
         end.
Proof.
  intros Hu Hwf Hk. rewrite compose_scene_params.
  destruct (sampled_in_range (np_randint 0 10000000 g).1 k lo hi Hu Hk)
    as (x & Hx & Hin).
  destruct overrides as [o|]; simpl.
  - destruct (get o k) as [y|] eqn:Hy.
    + eexists _, y. split; [done|]. split; [|done].
      apply get_update_in; [by apply Hwf | done].
    + eexists _, x. split; [done|]. split; [|done].
      apply get_None in Hy. by rewrite get_update_notin.
  - by eexists _, x.
Qed.

Lemma subscript_Value {V} (d : dict V) k : k ∈ keys d → ∃ v, get d k = Some v ∧ subscript d k = Value v.
Proof.
  intros Hk. apply get_is_Some in Hk as [v Hv]. exists v.
  unfold subscript. by rewrite Hv.
Qed.

Lemma reads_succeed p :
  param_names ⊆ keys p →
  ∃ t sh, create_asset p = Value t ∧ my_shader p = Value sh ∧
          get p "major_radius" = Some (major_radius t) ∧
          get p "minor_radius" = Some (minor_radius t) ∧
          get p "noise_scale" = Some (Scale sh) ∧
          get p "noise_distortion" = Some (Distortion sh).
Proof.
  intros Hsub. unfold create_asset, my_shader.
  destruct (subscript_Value p "major_radius") as (a & Ha & ->).
  { apply Hsub. unfold param_names, param_intervals. simpl. left. }
  destruct (subscript_Value p "minor_radius") as (b & Hb & ->).
  { apply Hsub. unfold param_names, param_intervals. simpl. right; left. }
  destruct (subscript_Value p "noise_scale") as (c & Hc & ->).
  { apply Hsub. unfold param_names, param_intervals. simpl. do 2 right; left. }
  destruct (subscript_Value p "noise_distortion") as (d & Hd & ->).
  { apply Hsub. unfold param_names, param_intervals. simpl. do 3 right; left. }
  by eexists _, _.
Qed.

(** X9: whatever the overrides, the parameters [compose_scene] ends with
    have the keys that [create_asset] and [my_shader] read: neither raises
    [KeyError], and each passes on the value the parameters hold. *)
Theorem compose_scene_reads_succeed overrides g :
  ∃ p t sh,
    (compose_scene np_seed np_uniform np_randint on_exit overrides g).1 = Ok p ∧
    create_asset p = Value t ∧ my_shader p = Value sh ∧
    get p "major_radius" = Some (major_radius t) ∧
    get p "minor_radius" = Some (minor_radius t) ∧
    get p "noise_scale" = Some (Scale sh) ∧
    get p "noise_distortion" = Some (Distortion sh).
Proof.
  rewrite compose_scene_params.
  set (base := sampled _ _ _).
  assert (∃ p, apply_overrides base overrides = Ok p ∧ param_names ⊆ keys p)
    as (p & Hp & Hsub).
  { destruct overrides as [o|]; eexists; (split; [done|]).
    - rewrite <- (keys_sampled np_seed np_uniform (np_randint 0 10000000 g).1).
      apply keys_update_subseteq.
    - by rewrite <- (keys_sampled np_seed np_uniform (np_randint 0 10000000 g).1). }
  destruct (reads_succeed p Hsub) as (t & sh & Hrest).
  by exists p, t, sh.
Qed.
End asset_reads.

#[local] Set Warnings "-clear-no-such-hyp".


(** ** The files of a frame *)

Lemma length_zfill n s : String.length (zfill n s) = n + String.length s.
Proof. induction n as [|n IH]; simpl; [done | by rewrite IH]. Qed.

Lemma uint_of_string_zfill n s :
  NilEmpty.uint_of_string (zfill n s)
  = Nat.iter n Decimal.D0 <$> NilEmpty.uint_of_string s.
Proof.
  induction n as [|n IH]; simpl.
  - by destruct (NilEmpty.uint_of_string s).
  - rewrite IH. by destruct (NilEmpty.uint_of_string s).
Qed.

Lemma of_uint_zeros n d : Nat.of_uint (Nat.iter n Decimal.D0 d) = Nat.of_uint d.
Proof. induction n as [|n IH]; simpl; [done | exact IH]. Qed.

Lemma str_nonempty i : str i ≠ EmptyString.
Proof. unfold str. by destruct (Nat.to_uint i) as [|[]| | | | | | | | |]. Qed.

Lemma uint_of_str i :
  Nat.of_uint <$> NilEmpty.uint_of_string (str i) = Some i.
Proof.
  pose proof (DecimalNat.Unsigned.of_to i) as Hi. unfold str.
  destruct (Nat.to_uint i) as [|d|d|d|d|d|d|d|d|d|d] eqn:Hd;
    unfold NilZero.string_of_uint; [by rewrite <- Hi|..];
    rewrite NilEmpty.usu; simpl; by rewrite <- Hi.
Qed.

Lemma string_length_append s t :
  String.length (s +:+ t) = String.length s + String.length t.
Proof.
  induction s as [|a s IH]; [done|].
  change (S (String.length (s +:+ t)) = S (String.length s + String.length t)).
  by rewrite IH.
Qed.

Lemma string_append_inj_l s t u : s +:+ u = t +:+ u → s = t.
Proof.
  revert t. induction s as [|a s IH]; intros [|b t] Heq; [done|..].
  - apply (f_equal String.length) in Heq.
    rewrite !string_length_append in Heq. simpl in Heq. lia.
  - apply (f_equal String.length) in Heq.
    rewrite !string_length_append in Heq. simpl in Heq. lia.
  - injection Heq as -> Heq. f_equal. by apply IH.
Qed.

(** X11: the frame number can be read back from [f'{i:04d}'], which has
    four characters at least; so two different frames never share an image
    file name. *)
Theorem format_04d_round_trip (i : nat) :
  int_of_digits (format_04d i) = Some i ∧
  4 ≤ String.length (format_04d i) ∧
  ∀ j, format_04d i +:+ ".png" = format_04d j +:+ ".png" → i = j.
Proof.
  assert (∀ n, int_of_digits (format_04d n) = Some n) as Hrt.
  { intros n. unfold int_of_digits, format_04d, NilZero.uint_of_string.
    destruct (zfill _ (str n)) eqn:Hs.
    - apply (f_equal String.length) in Hs. rewrite length_zfill in Hs.
      pose proof (str_nonempty n). destruct (str n); [done | simpl in Hs; lia].
    - rewrite <- Hs, uint_of_string_zfill.
      pose proof (uint_of_str n) as Hn.
      destruct (NilEmpty.uint_of_string (str n)) as [d|]; [|done].
      simpl in *. rewrite of_uint_zeros. done. }
  split; [done|]. split.
  - unfold format_04d. rewrite length_zfill. lia.
  - intros j Heq. apply string_append_inj_l in Heq.
    pose proof (Hrt i) as Hi. rewrite Heq, Hrt in Hi. by simplify_eq.
Qed.

(** ** The frames of create_param_demo *)

Section demo_facts.
Context {rng : Type}.
Variable np_seed : Z → rng.
Variable np_uniform : float → float → state rng float.
Variable np_randint : Z → Z → state rng Z.
Variable on_exit : rng → rng → rng.
Variable np_linspace : float → float → nat → list float.
Implicit Types (g : rng) (o p : dict float) (steps : list (dict float)).

Lemma update_covering_lookup factory_seed o k :
  dict_wf o → param_names ⊆ keys o →
  get (update (sampled np_seed np_uniform factory_seed) o) k = get o k.
Proof.
  intros Hwf Hcover. destruct (get o k) as [v|] eqn:Hk.
  - by apply get_update_in.
  - apply get_None in Hk. rewrite get_update_notin by done.
    apply get_None. rewrite keys_sampled. intros Hin. by apply Hk, Hcover.
Qed.

Lemma render_step_spec save_blend seed i o g :
  let fr := (render_step np_seed np_uniform np_randint on_exit save_blend seed i o g).1 in
  frame_index fr = i ∧ frame_overrides fr = o ∧
  frame_image fr = format_04d i +:+ ".png" ∧
  frame_blend fr = (if save_blend then Some ("scene_" +:+ str i +:+ ".blend") else None) ∧
  frame_params fr
  = Ok (update (sampled np_seed np_uniform (np_randint 0 10000000 (np_seed seed)).1) o).
Proof.
  pose proof (compose_scene_params np_seed np_uniform np_randint on_exit
                (Some o) (np_seed seed)) as Hc.
  unfold render_step, FixedSeed, mbind, state_bind, mret, state_ret.
  destruct (compose_scene _ _ _ _ (Some o) (np_seed seed)) as [r g1].
  simpl in *. by subst r.
Qed.

Lemma render_all_spec save_blend seed steps :
  ∀ i g,
    let frs := (render_all np_seed np_uniform np_randint on_exit
                  save_blend seed i steps g).1 in
    frame_overrides <$> frs = steps ∧
    ∀ j fr, frs !! j = Some fr →
      ∃ g', fr = (render_step np_seed np_uniform np_randint on_exit
                    save_blend seed (i + j) (frame_overrides fr) g').1.
Proof.
  induction steps as [|o steps IH]; intros i g; cbn [render_all].
  - unfold mret, state_ret. simpl. split; [done|]. intros j fr Hj. done.
  - unfold mbind, state_bind, mret, state_ret.
    pose proof (render_step_spec save_blend seed i o g) as (_ & Ho & _).
    destruct (render_step _ _ _ _ save_blend seed i o g) as [fr g1] eqn:Hfr.
    specialize (IH (S i) g1).
    destruct (render_all _ _ _ _ save_blend seed (S i) steps g1) as [frs g2].
    cbn [fst] in *. destruct IH as [IHo IHj].
    split; [by rewrite fmap_cons, Ho, IHo|].
    intros [|j] fr' Hj; simpl in Hj.
    + simplify_eq. exists g. rewrite Nat.add_0_r, Hfr. done.
    + destruct (IHj j fr' Hj) as [g' Hg']. exists g'.
      by replace (i + S j) with (S i + j) by lia.
Qed.

Lemma override_ranges_ok :
  linspace_length np_linspace →
  dict_wf (override_ranges np_linspace) ∧
  nonempty_ranges (override_ranges np_linspace) ∧
  keys (override_ranges np_linspace) = param_names ∧
  total (override_ranges np_linspace) = 12.
Proof.
  intros Hlen. split; [|split; [|split]].
  - unfold dict_wf, keys, override_ranges. simpl.
    repeat (apply NoDup_cons; split;
            [rewrite ?not_elem_of_cons; repeat split; (discriminate || apply not_elem_of_nil)|]).
    apply NoDup_nil_2.
  - unfold nonempty_ranges, override_ranges.
    repeat (apply Forall_cons; split;
            [simpl; intros Hnil; apply (f_equal length) in Hnil;
             rewrite Hlen in Hnil; discriminate|]).
    apply Forall_nil_2.
  - done.
  - unfold total, override_ranges. simpl. by rewrite !Hlen.
Qed.

(** X12: when [np.linspace] returns [num] samples, [create_param_demo]
    renders twelve frames, one for each OverrideSet of the enumeration and
    in its order.  Frame [i] writes the image [f'{i:04d}.png'] (and
    [scene_{i}.blend] when asked to), and the parameters of its asset are
    its OverrideSet, key for key, whatever the seed. *)
Theorem create_param_demo_frames save_blend seed g :
  linspace_length np_linspace →
  ∃ frames,
    (create_param_demo np_seed np_uniform np_randint on_exit np_linspace
       save_blend seed g).1 = Ok frames ∧
    length frames = 12 ∧
    iter_overrides (override_ranges np_linspace) = Ok (frame_overrides <$> frames) ∧
    ∀ i fr, frames !! i = Some fr →
      frame_index fr = i ∧
      frame_image fr = format_04d i +:+ ".png" ∧
      frame_blend fr
      = (if save_blend then Some ("scene_" +:+ str i +:+ ".blend") else None) ∧
      ∃ p, frame_params fr = Ok p ∧ ∀ k, get p k = get (frame_overrides fr) k.
Proof.
  intros Hlen.
  destruct (override_ranges_ok Hlen) as (Hwf & Hne & Hkeys & Htotal).
  destruct (mid_vals_from_ok [] _ Hne) as [mid Hmid].
  assert (iter_overrides (override_ranges np_linspace)
          = Ok (sweep_steps mid (override_ranges np_linspace))) as Hsteps.
  { unfold iter_overrides, mid_vals. by rewrite Hmid. }
  unfold create_param_demo. rewrite Hsteps.
  unfold mbind, state_bind, mret, state_ret.
  pose proof (render_all_spec save_blend seed
                (sweep_steps mid (override_ranges np_linspace)) 0 g) as [Ho Hfr].
  destruct (render_all _ _ _ _ save_blend seed 0 _ g) as [frames g1].
  cbn [fst] in Ho, Hfr. exists frames. split; [done|]. split; [|split].
  - rewrite <- (length_fmap frame_overrides), Ho, length_sweep_steps. done.
  - by rewrite Ho.
  - intros i fr Hi. destruct (Hfr i fr Hi) as [g' Hg'].
    pose proof (render_step_spec save_blend seed (0 + i) (frame_overrides fr) g')
      as (Hidx & _ & Himg & Hblend & Hparams).
    rewrite <- Hg' in Hidx, Himg, Hblend, Hparams. change (0 + i) with i in *.
    split; [done|]. split; [done|]. split; [done|].
    eexists. split; [done|]. intros k.
    assert (frame_overrides fr ∈ sweep_steps mid (override_ranges np_linspace)) as Hin.
    { rewrite <- Ho. apply list_elem_of_fmap. exists fr. split; [done|].
      by eapply list_elem_of_lookup_2. }
    pose proof (keys_sweep_steps _ _ _ Hwf Hmid Hin) as Hk.
    apply update_covering_lookup.
    + unfold dict_wf. rewrite Hk. exact Hwf.
    + by rewrite Hk, Hkeys.
Qed.
End demo_facts.

Lemma toy_linspace_length : linspace_length toy_linspace.
Proof.
  intros start stop num. unfold toy_linspace. by rewrite length_fmap, length_seq.
Qed.

Lemma create_param_demo_frames_witness :
  ∃ frames,
    (create_param_demo toy_seed toy_uniform toy_randint (λ g _, g) toy_linspace
       true 5 0%Z).1 = Ok frames ∧
    length frames = 12 ∧
    iter_overrides (override_ranges toy_linspace) = Ok (frame_overrides <$> frames) ∧
    ∀ i fr, frames !! i = Some fr →
      frame_index fr = i ∧
      frame_image fr = format_04d i +:+ ".png" ∧
      frame_blend fr
      = (if true then Some ("scene_" +:+ str i +:+ ".blend") else None) ∧
      ∃ p, frame_params fr = Ok p ∧ ∀ k, get p k = get (frame_overrides fr) k.
Proof.
  apply (create_param_demo_frames toy_seed toy_uniform toy_randint (λ g _, g)
           toy_linspace true 5 0%Z).
  exact toy_linspace_length.
Defined.

Lemma compose_scene_fully_overridden_witness :
  ∃ p, (compose_scene toy_seed toy_uniform toy_randint (λ g _, g)
          (Some base0) 0%Z).1 = Ok p ∧
       ∀ k, get p k = get base0 k.
Proof.
  apply (compose_scene_fully_overridden toy_seed toy_uniform toy_randint
           (λ g _, g) base0 0%Z).
  - unfold dict_wf, keys, base0. simpl.
    repeat (apply NoDup_cons; split;
            [rewrite ?not_elem_of_cons; repeat split; (discriminate || apply not_elem_of_nil)|]).
    apply NoDup_nil_2.
  - intros k Hk. exact Hk.
Defined.

Lemma compose_scene_overridden_or_in_range_witness :
  ∃ p x, (compose_scene toy_seed toy_uniform toy_randint (λ g _, g)
            (Some [("major_radius"%string, 7%float)]) 0%Z).1 = Ok p ∧
         get p "minor_radius"%string = Some x ∧
         match Some [("major_radius"%string, 7%float)] ≫= (λ o, get o "minor_radius"%string) with
         | Some y => x = y
         | None => between 0.1 1 x = true
         end.
Proof.
  apply (compose_scene_overridden_or_in_range toy_seed toy_uniform toy_randint
           (λ g _, g) (Some [("major_radius"%string, 7%float)]) 0%Z
           "minor_radius"%string 0.1%float 1%float).
  - exact toy_uniform_in_interval.
  - intros o [= <-]. unfold dict_wf, keys. simpl. apply NoDup_singleton.
  - unfold param_intervals. right. left.
Defined.
